(** * Well-plate analyser: the calibrated well-colour pipeline

    A shallow embedding of [services/wellPlateProcessor.ts]: the sRGB/CIELAB
    converters, the disc sampler, the per-channel median estimator and
    [processWellPlate], followed by the properties of the written
    specification that concern them.

    Number model.  A JavaScript [number] is modelled as a real ([R]); values
    the code keeps integral (image bytes, the results of [Math.round], loop
    counters) are integers ([Z], [nat]) injected with [IZR]/[INR] where the
    code does arithmetic on them.  [NaN], the infinities and binary64
    rounding have no counterpart in this model. *)

From Stdlib Require Import Reals Lra Lia ZArith List String Ascii Bool Arith.
From Stdlib Require Import Zfloor DecimalString Permutation Sorted.
Import ListNotations.

Open Scope R_scope.

(** ** JavaScript [Math] primitives *)

Module JsMath.

(** [Math.round x]: the nearest integer, ties towards plus infinity. *)
Definition round (x : R) : Z := Zfloor (x + 1 / 2).

(** [Math.floor x]: the greatest integer not above [x]. *)
Definition floor (x : R) : Z := Zfloor x.

(** [Math.pow x y].  On a positive base it is [exp (y * ln x)]; on a base
    that is zero or negative it is defined for whole exponents.  The
    remaining cases ([NaN] in JavaScript) are given the value 0 and are
    reached by no call below. *)
Definition pow (x y : R) : R :=
  if Rlt_dec 0 x then Rpower x y
  else if Req_dec_T y (IZR (Zfloor y)) then powerRZ x (Zfloor y)
  else 0.

Definition abs (x : R) : R := Rabs x.
Definition min (x y : R) : R := Rmin x y.
Definition max (x y : R) : R := Rmax x y.
Definition sqrt (x : R) : R := R_sqrt.sqrt x.

End JsMath.

(** Comparison operators of the source, as booleans. *)
Definition gtb (x y : R) : bool := if Rlt_dec y x then true else false.
Definition leb (x y : R) : bool := if Rle_dec x y then true else false.

Infix ">?" := gtb (at level 70, no associativity) : R_scope.
Infix "<=?" := leb (at level 70, no associativity) : R_scope.

(** ** Data model ([types.ts]) *)

Record Point := mkPoint { pt_x : R; pt_y : R }.

(** Every [RGB] the program builds has whole channels: image bytes, the
    literal 0, or the result of [Math.round]. *)
Record RGB := mkRGB { rgb_r : Z; rgb_g : Z; rgb_b : Z }.

Record Lab := mkLab { lab_l : R; lab_a : R; lab_b : R }.

Record WellResult := mkWellResult {
  w_id : string;
  w_row : nat;
  w_col : nat;
  center : Point;
  avgColor : RGB;
  intensity : R;
  cellCount : R
}.

Definition NUM_ROWS : nat := 8.
Definition NUM_COLS : nat := 6.
Definition WELL_RADIUS_FACTOR : R := 0.30.

(** ** Colour-space conversion *)

(** Gamma expansion of one normalised channel (step 1 of [rgbToLab]). *)
Definition srgbToLinear (c : R) : R :=
  if c >? 0.04045 then JsMath.pow ((c + 0.055) / 1.055) 2.4 else c / 12.92.

(** The local function [f] of [rgbToLab]. *)
Definition labF (t : R) : R :=
  if t >? 0.008856 then JsMath.pow t (1 / 3) else (7.787 * t) + (16 / 116).

Definition rgbToLab (rgb : RGB) : Lab :=
  let r := IZR (rgb_r rgb) / 255 in
  let g := IZR (rgb_g rgb) / 255 in
  let b := IZR (rgb_b rgb) / 255 in
  let r := srgbToLinear r in
  let g := srgbToLinear g in
  let b := srgbToLinear b in
  let x := r * 0.4124564 + g * 0.3575761 + b * 0.1804375 in
  let y := r * 0.2126729 + g * 0.7151522 + b * 0.0721750 in
  let z := r * 0.0193339 + g * 0.1191920 + b * 0.9503041 in
  let varX := x / 0.95047 in
  let varY := y / 1.00000 in
  let varZ := z / 1.08883 in
  let varX := labF varX in
  let varY := labF varY in
  let varZ := labF varZ in
  let l := (116 * varY) - 16 in
  let a := 500 * (varX - varY) in
  let b_lab := 200 * (varY - varZ) in
  {| lab_l := l; lab_a := a; lab_b := b_lab |}.

(** The local function [f_inv] of [labToRgb]. *)
Definition labFInv (t : R) : R :=
  if t >? 0.206897 then JsMath.pow t 3 else (t - 16 / 116) / 7.787.

(** The local function [toSrgb] of [labToRgb]. *)
Definition toSrgb (c : R) : R :=
  if c >? 0.0031308 then 1.055 * JsMath.pow c (1 / 2.4) - 0.055 else 12.92 * c.

(** The local function [clamp] of [labToRgb]. *)
Definition clamp255 (val : R) : Z :=
  Z.max 0 (Z.min 255 (JsMath.round (val * 255))).

Definition labToRgb (lab : Lab) : RGB :=
  let y := (lab_l lab + 16) / 116 in
  let x := lab_a lab / 500 + y in
  let z := y - lab_b lab / 200 in
  let x := labFInv x * 0.95047 in
  let y := labFInv y * 1.00000 in
  let z := labFInv z * 1.08883 in
  let r := x * 3.2404542 + y * -1.5371385 + z * -0.4985314 in
  let g := x * -0.9692660 + y * 1.8760108 + z * 0.0415560 in
  let b := x * 0.0556434 + y * -0.2040259 + z * 1.0572252 in
  let r := toSrgb r in
  let g := toSrgb g in
  let b := toSrgb b in
  {| rgb_r := clamp255 r; rgb_g := clamp255 g; rgb_b := clamp255 b |}.

(** ** Pixel sampling *)

(** The part of [CanvasRenderingContext2D] the program uses.
    [getImageData sx sy sw sh] is [None] when the call throws and otherwise
    the [data] array of the returned [ImageData]: four bytes (red, green,
    blue, alpha) per pixel, rows first. *)
Record CanvasRenderingContext2D := mkContext {
  getImageData : Z -> Z -> Z -> Z -> option (list Z)
}.

(** The radius [getPixelData] works with after its first statement. *)
Definition effectiveRadius (radius : R) : Z :=
  Z.max 1 (JsMath.round radius).

(** The test [dist <= radius] for the pixel with running index [k]
    ([k = i / 4]) of a square of side [2 * radius]. *)
Definition inDisc (radius k : Z) : bool :=
  let px := (k mod (radius * 2))%Z in
  let py := JsMath.floor (IZR k / IZR (radius * 2)) in
  let dist :=
    JsMath.sqrt (JsMath.pow (IZR (px - radius)) 2 + JsMath.pow (IZR (py - radius)) 2) in
  dist <=? IZR radius.

(** The [for] loop of [getPixelData], one step per four bytes.  [ImageData]
    arrays hold a whole number of pixels; a trailing fragment ends the scan. *)
Fixpoint scanPixels (radius k : Z) (data : list Z) : list RGB :=
  match data with
  | r :: g :: b :: _ :: rest =>
      (if inDisc radius k then [ {| rgb_r := r; rgb_g := g; rgb_b := b |} ] else [])
        ++ scanPixels radius (k + 1) rest
  | _ => []
  end.

Definition getPixelData (ctx : CanvasRenderingContext2D) (x y radius : R) : list RGB :=
  let radius := effectiveRadius radius in
  match getImageData ctx (JsMath.round (x - IZR radius)) (JsMath.round (y - IZR radius))
                     (radius * 2) (radius * 2) with
  | Some data => scanPixels radius 0 data
  | None => []
  end.

(** ** Robust colour estimate *)

(** [Array.prototype.sort] with the comparator [(a, b) => a - b]: the
    ascending arrangement of the numbers. *)
Fixpoint insertAscending (v : R) (l : list R) : list R :=
  match l with
  | [] => [v]
  | w :: rest => if v <=? w then v :: l else w :: insertAscending v rest
  end.

Fixpoint sortAscending (l : list R) : list R :=
  match l with
  | [] => []
  | v :: rest => insertAscending v (sortAscending rest)
  end.

(** The median expression used for each of the three channels. *)
Definition medianOfSorted (values : list R) : R :=
  let mid := (List.length values / 2)%nat in
  if (List.length values mod 2 =? 0)%nat
  then (nth (mid - 1) values 0 + nth mid values 0) / 2
  else nth mid values 0.

Definition getRobustAverageColor (pixels : list RGB) : RGB :=
  match pixels with
  | [] => {| rgb_r := 0; rgb_g := 0; rgb_b := 0 |}
  | [p] => p
  | _ =>
      let labPixels := map rgbToLab pixels in
      let l_values := sortAscending (map lab_l labPixels) in
      let a_values := sortAscending (map lab_a labPixels) in
      let b_values := sortAscending (map lab_b labPixels) in
      let medianL := medianOfSorted l_values in
      let medianA := medianOfSorted a_values in
      let medianB := medianOfSorted b_values in
      labToRgb {| lab_l := medianL; lab_a := medianA; lab_b := medianB |}
  end.

(** ** The pipeline *)

(** What the browser delivers to the promise body: the image fails to load
    ([onerror]), or it loads and [canvas.getContext] yields a context or
    [null]. *)
Inductive ImageLoad :=
| LoadFailed
| Loaded (ctx : option CanvasRenderingContext2D).

Inductive Rejection :=
| LoadErrorEvent
| Error (message : string).

Inductive Settled :=
| Rejected (reason : Rejection)
| Resolved (results : list WellResult).

Definition noContextError : Rejection :=
  Error "Could not get canvas context".

Definition referenceError : Rejection :=
  Error "Could not sample reference colors. Please ensure calibration points are inside wells.".

(** A counting [for] loop threading a state. *)
Definition forLoop {S : Type} (n : nat) (body : nat -> S -> S) (s : S) : S :=
  fold_left (fun acc i => body i acc) (seq 0 n) s.

(** The id template: [String.fromCharCode(65 + row)] followed by [col + 1]. *)
Definition wellId (row col : nat) : string :=
  String (ascii_of_nat (65 + row)) (NilZero.string_of_uint (Nat.to_uint (col + 1))).

(** The constants [dx], [dy] and [radius] computed at the start of the
    [onload] handler. *)
Definition gridStepX (a1 h6 : Point) : R := (pt_x h6 - pt_x a1) / (INR NUM_COLS - 1).
Definition gridStepY (a1 h6 : Point) : R := (pt_y h6 - pt_y a1) / (INR NUM_ROWS - 1).
Definition gridRadius (a1 h6 : Point) : R :=
  JsMath.min (JsMath.abs (gridStepX a1 h6)) (JsMath.abs (gridStepY a1 h6)) * WELL_RADIUS_FACTOR.

(** The component-wise difference that builds [gradientVector] (from
    [labMin] to [labMax]) and [wellVector] (from [labMin] to [labWell]). *)
Definition gradientOf (labMin labMax : Lab) : Lab :=
  {| lab_l := lab_l labMax - lab_l labMin;
     lab_a := lab_a labMax - lab_a labMin;
     lab_b := lab_b labMax - lab_b labMin |}.

(** The expression of [gradientMagSq]. *)
Definition magnitudeSquared (v : Lab) : R :=
  JsMath.pow (lab_l v) 2 + JsMath.pow (lab_a v) 2 + JsMath.pow (lab_b v) 2.

(** The expression of [dotProduct]. *)
Definition dot (u v : Lab) : R :=
  (lab_l u * lab_l v) + (lab_a u * lab_a v) + (lab_b u * lab_b v).

(** The guarded block of the loop body on a well colour already in Lab
    space: the pair (intensity, cellCount). *)
Definition scoreLab (labMin gradientVector : Lab) (gradientMagSq : R)
    (hadPixels : bool) (labWell : Lab) : R * R :=
  if hadPixels && (gradientMagSq >? 1e-6) then
    let wellVector := gradientOf labMin labWell in
    let dotProduct := dot wellVector gradientVector in
    let intensity := dotProduct / gradientMagSq in
    let intensity := JsMath.max 0 (JsMath.min 1 intensity) in
    let cellCount := JsMath.pow intensity 2 * 10000 in
    (intensity, cellCount)
  else (0, 0).

(** One iteration of the inner loop: the entry pushed for [(row, col)]. *)
Definition wellEntry (ctx : CanvasRenderingContext2D) (a1 : Point) (dx dy radius : R)
    (labMin gradientVector : Lab) (gradientMagSq : R) (row col : nat) : WellResult :=
  let centerX := pt_x a1 + INR col * dx in
  let centerY := pt_y a1 + INR row * dy in
  let pixels := getPixelData ctx centerX centerY radius in
  let avgColor := getRobustAverageColor pixels in
  let score :=
    scoreLab labMin gradientVector gradientMagSq
             (0 <? List.length pixels)%nat (rgbToLab avgColor) in
  {| w_id := wellId row col;
     w_row := row;
     w_col := col;
     center := {| pt_x := centerX; pt_y := centerY |};
     avgColor := avgColor;
     intensity := fst score;
     cellCount := snd score |}.

Definition processWellPlate (load : ImageLoad)
    (a1 h6 minColorPoint maxColorPoint : Point) : Settled :=
  match load with
  | LoadFailed => Rejected LoadErrorEvent
  | Loaded None => Rejected noContextError
  | Loaded (Some ctx) =>
      let dx := gridStepX a1 h6 in
      let dy := gridStepY a1 h6 in
      let radius := gridRadius a1 h6 in
      let minColorPixels := getPixelData ctx (pt_x minColorPoint) (pt_y minColorPoint) radius in
      let maxColorPixels := getPixelData ctx (pt_x maxColorPoint) (pt_y maxColorPoint) radius in
      if (List.length minColorPixels =? 0)%nat || (List.length maxColorPixels =? 0)%nat then
        Rejected referenceError
      else
        let minRefRgb := getRobustAverageColor minColorPixels in
        let maxRefRgb := getRobustAverageColor maxColorPixels in
        let labMin := rgbToLab minRefRgb in
        let labMax := rgbToLab maxRefRgb in
        let gradientVector := gradientOf labMin labMax in
        let gradientMagSq := magnitudeSquared gradientVector in
        Resolved
          (forLoop NUM_ROWS (fun row results =>
             forLoop NUM_COLS (fun col results =>
               results ++ [wellEntry ctx a1 dx dy radius labMin gradientVector
                                     gradientMagSq row col])
               results)
             [])
  end.

(** ** Derived notions used in the statements *)

(** The disc test decided on integers. *)
Definition inDiscZ (radius k : Z) : bool :=
  let px := (k mod (radius * 2))%Z in
  let py := (k / (radius * 2))%Z in
  ((px - radius) * (px - radius) + (py - radius) * (py - radius) <=? radius * radius)%Z.

(** A context whose reads of a non-empty rectangle succeed and return four
    bytes per pixel, as an origin-clean canvas does. *)
Definition readsRectangles (ctx : CanvasRenderingContext2D) : Prop :=
  forall sx sy sw sh : Z,
    (0 < sw)%Z -> (0 < sh)%Z ->
    exists data, getImageData ctx sx sy sw sh = Some data
                 /\ List.length data = Z.to_nat (4 * sw * sh).

Definition referenceMissing (ctx : CanvasRenderingContext2D) (a1 h6 p : Point) : Prop :=
  getPixelData ctx (pt_x p) (pt_y p) (gridRadius a1 h6) = [].

Definition referenceLab (ctx : CanvasRenderingContext2D) (a1 h6 p : Point) : Lab :=
  rgbToLab (getRobustAverageColor (getPixelData ctx (pt_x p) (pt_y p) (gridRadius a1 h6))).

(** The entry for [(row, col)] under the calibration of one invocation. *)
Definition calibratedEntry (ctx : CanvasRenderingContext2D)
    (a1 h6 minColorPoint maxColorPoint : Point) (row col : nat) : WellResult :=
  let labMin := referenceLab ctx a1 h6 minColorPoint in
  let labMax := referenceLab ctx a1 h6 maxColorPoint in
  wellEntry ctx a1 (gridStepX a1 h6) (gridStepY a1 h6) (gridRadius a1 h6)
            labMin (gradientOf labMin labMax)
            (magnitudeSquared (gradientOf labMin labMax)) row col.

Definition gridEntries (ctx : CanvasRenderingContext2D)
    (a1 h6 minColorPoint maxColorPoint : Point) : list WellResult :=
  flat_map (fun row => map (calibratedEntry ctx a1 h6 minColorPoint maxColorPoint row)
                           (seq 0 NUM_COLS))
           (seq 0 NUM_ROWS).

(** The sample taken for an entry, read back from its recorded centre. *)
Definition sampleOf (ctx : CanvasRenderingContext2D) (a1 h6 : Point) (w : WellResult)
  : list RGB :=
  getPixelData ctx (pt_x (center w)) (pt_y (center w)) (gridRadius a1 h6).

Definition clampUnit (v : R) : R := JsMath.max 0 (JsMath.min 1 v).

(** A colour whose channels are 8-bit values. *)
Definition inGamut (c : RGB) : Prop :=
  (0 <= rgb_r c <= 255)%Z /\ (0 <= rgb_g c <= 255)%Z /\ (0 <= rgb_b c <= 255)%Z.

(** Half a unit of an 8-bit channel, seen before the factor 1.055. *)
Definition gammaSlack : R := 1 / (2 * 255 * 1.055).

(** ** The plate layout, written out *)

Definition rowLetters : list ascii :=
  ["A"; "B"; "C"; "D"; "E"; "F"; "G"; "H"]%char.

Definition columnNumbers : list string :=
  ["1"; "2"; "3"; "4"; "5"; "6"]%string.

(** The ids of the plate in row-major order, written out. *)
Definition plateIds : list string :=
  ["A1"; "A2"; "A3"; "A4"; "A5"; "A6";
   "B1"; "B2"; "B3"; "B4"; "B5"; "B6";
   "C1"; "C2"; "C3"; "C4"; "C5"; "C6";
   "D1"; "D2"; "D3"; "D4"; "D5"; "D6";
   "E1"; "E2"; "E3"; "E4"; "E5"; "E6";
   "F1"; "F2"; "F3"; "F4"; "F5"; "F6";
   "G1"; "G2"; "G3"; "G4"; "G5"; "G6";
   "H1"; "H2"; "H3"; "H4"; "H5"; "H6"]%string.

(** ** The estimator as the specification words it *)

(** Drop [k] values from each end of a list. *)
Fixpoint trimEnds (k : nat) (l : list R) : list R :=
  match k with
  | O => l
  | S k' => trimEnds k' (removelast (tl l))
  end.

(** The median as described: in an ascending list, discard equally many
    values from both ends until one or two are left, and average those. *)
Definition medianSpec (sorted : list R) : R :=
  match trimEnds ((List.length sorted - 1) / 2) sorted with
  | [m] => m
  | [m1; m2] => (m1 + m2) / 2
  | _ => 0
  end.

(** The estimator as described. *)
Definition estimateSpec (pixels : list RGB) : RGB :=
  match pixels with
  | [] => {| rgb_r := 0; rgb_g := 0; rgb_b := 0 |}
  | [p] => p
  | _ =>
      let uniform := map rgbToLab pixels in
      labToRgb {| lab_l := medianSpec (sortAscending (map lab_l uniform));
                  lab_a := medianSpec (sortAscending (map lab_a uniform));
                  lab_b := medianSpec (sortAscending (map lab_b uniform)) |}
  end.

(** ** A concrete canvas and two concrete inputs *)

Definition black : RGB := {| rgb_r := 0; rgb_g := 0; rgb_b := 0 |}.

(** The colour read at [(x, y)] from a canvas of [width] by [height] opaque
    pixels: positions outside the canvas read as transparent black. *)
Definition canvasColor (width height : Z) (pixel : Z -> Z -> RGB) (x y : Z) : RGB :=
  if ((0 <=? x) && (x <? width) && (0 <=? y) && (y <? height))%Z then pixel x y else black.

Definition canvasAlpha (width height x y : Z) : Z :=
  if ((0 <=? x) && (x <? width) && (0 <=? y) && (y <? height))%Z then 255 else 0.

Definition canvasBytes (width height : Z) (pixel : Z -> Z -> RGB) (x y : Z) : list Z :=
  let c := canvasColor width height pixel x y in
  [rgb_r c; rgb_g c; rgb_b c; canvasAlpha width height x y].

Definition zrange (n : Z) : list Z := map Z.of_nat (seq 0 (Z.to_nat n)).

(** [getImageData] of an origin-clean canvas: a zero extent throws, a
    negative one is measured backwards from the given corner. *)
Definition canvasOf (width height : Z) (pixel : Z -> Z -> RGB) : CanvasRenderingContext2D :=
  {| getImageData := fun sx sy sw sh =>
       if ((sw =? 0) || (sh =? 0))%Z then None
       else
         let x0 := Z.min sx (sx + sw) in
         let y0 := Z.min sy (sy + sh) in
         Some (flat_map
                 (fun j => flat_map (fun i => canvasBytes width height pixel (x0 + i) (y0 + j))
                                    (zrange (Z.abs sw)))
                 (zrange (Z.abs sh))) |}.

Definition grey10 : RGB := {| rgb_r := 10; rgb_g := 10; rgb_b := 10 |}.

(** A 100-by-100 image of one colour. *)
Definition flatCanvas : CanvasRenderingContext2D :=
  canvasOf 100 100 (fun _ _ => grey10).


Definition cornerA : Point := {| pt_x := 10; pt_y := 10 |}.
Definition cornerH : Point := {| pt_x := 15; pt_y := 17 |}.
Definition lightPoint : Point := {| pt_x := 70; pt_y := 10 |}.

(** A 1000-by-1000 image and the landmarks (100, 100) and (600, 800). *)
Definition wideCanvas : CanvasRenderingContext2D :=
  canvasOf 1000 1000 (fun _ _ => grey10).

Definition wideA : Point := {| pt_x := 100; pt_y := 100 |}.
Definition wideH : Point := {| pt_x := 600; pt_y := 800 |}.

Definition blankEntry : WellResult :=
  {| w_id := ""; w_row := 0; w_col := 0; center := {| pt_x := 0; pt_y := 0 |};
     avgColor := black; intensity := 0; cellCount := 0 |}.

(** ** Facts about the numeric primitives *)

Lemma gtb_true_iff (x y : R) : (x >? y) = true <-> y < x.
Proof. unfold gtb. destruct (Rlt_dec y x); split; intros; solve [easy | lra]. Qed.

Lemma gtb_false_iff (x y : R) : (x >? y) = false <-> x <= y.
Proof. unfold gtb. destruct (Rlt_dec y x); split; intros; solve [easy | lra]. Qed.

Lemma leb_true_iff (x y : R) : (x <=? y) = true <-> x <= y.
Proof. unfold leb. destruct (Rle_dec x y); split; intros; solve [easy | lra]. Qed.

Lemma leb_false_iff (x y : R) : (x <=? y) = false <-> y < x.
Proof. unfold leb. destruct (Rle_dec x y); split; intros; solve [easy | lra]. Qed.

Lemma pow_two (x : R) : JsMath.pow x 2 = x * x.
Proof.
  unfold JsMath.pow. destruct (Rlt_dec 0 x) as [Hpos | Hneg].
  - replace 2 with (INR 2) by (simpl; lra).
    rewrite Rpower_pow by assumption. simpl. lra.
  - rewrite (ZfloorZ 2). destruct (Req_dec_T 2 2) as [_ | Hne]; [| contradiction].
    simpl. lra.
Qed.

Lemma pow_three (x : R) : JsMath.pow x 3 = x * x * x.
Proof.
  unfold JsMath.pow. destruct (Rlt_dec 0 x) as [Hpos | Hneg].
  - replace 3 with (INR 3) by (simpl; lra).
    rewrite Rpower_pow by assumption. simpl. lra.
  - rewrite (ZfloorZ 3). destruct (Req_dec_T 3 3) as [_ | Hne]; [| contradiction].
    simpl. lra.
Qed.

Lemma pow_positive (x y : R) : 0 < x -> JsMath.pow x y = Rpower x y.
Proof. intros Hx. unfold JsMath.pow. destruct (Rlt_dec 0 x); [reflexivity | contradiction]. Qed.

Lemma round_whole (z : Z) : JsMath.round (IZR z) = z.
Proof. unfold JsMath.round. apply Zfloor_eq. lra. Qed.

Lemma round_eq (z : Z) (x : R) :
  IZR z - 1 / 2 <= x < IZR z + 1 / 2 -> JsMath.round x = z.
Proof. intros Hx. unfold JsMath.round. apply Zfloor_eq. lra. Qed.

Lemma round_below_half (x : R) : x < 1 / 2 -> (JsMath.round x <= 0)%Z.
Proof.
  intros Hx. unfold JsMath.round.
  pose proof (Zfloor_bound (x + 1 / 2)) as [Hlo _].
  assert (Hlt : IZR (Zfloor (x + 1 / 2)) < IZR 1) by lra.
  apply lt_IZR in Hlt. lia.
Qed.

Lemma sqrt_le_iff (a r : R) : 0 <= a -> 0 <= r -> (JsMath.sqrt a <= r <-> a <= r * r).
Proof.
  intros Ha Hr. unfold JsMath.sqrt. split; intros H.
  - rewrite <- (sqrt_sqrt a Ha).
    pose proof (sqrt_pos a). nra.
  - rewrite <- (sqrt_square r Hr). now apply sqrt_le_1_alt.
Qed.

Lemma floor_quotient (k d : Z) : (0 < d)%Z -> JsMath.floor (IZR k / IZR d) = (k / d)%Z.
Proof.
  intros Hd. unfold JsMath.floor. apply Zfloor_eq.
  assert (Hdr : 0 < IZR d) by now apply IZR_lt.
  pose proof (Z.mul_div_le k d Hd) as Hlo.
  pose proof (Z.mul_succ_div_gt k d Hd) as Hhi.
  apply IZR_le in Hlo. apply IZR_lt in Hhi.
  rewrite mult_IZR in Hlo. rewrite mult_IZR, succ_IZR in Hhi.
  split.
  - apply Rmult_le_reg_r with (IZR d); [assumption |].
    unfold Rdiv. rewrite Rmult_assoc, Rinv_l by lra. lra.
  - apply Rmult_lt_reg_r with (IZR d); [assumption |].
    unfold Rdiv. rewrite Rmult_assoc, Rinv_l by lra. lra.
Qed.

Lemma INR_NUM_COLS : INR NUM_COLS = 6.
Proof. unfold NUM_COLS. simpl. lra. Qed.

Lemma INR_NUM_ROWS : INR NUM_ROWS = 8.
Proof. unfold NUM_ROWS. simpl. lra. Qed.

Lemma inDisc_decide (radius k : Z) : (0 < radius)%Z -> inDisc radius k = inDiscZ radius k.
Proof.
  intros Hr. unfold inDisc, inDiscZ.
  rewrite floor_quotient by lia. rewrite !pow_two.
  set (px := (k mod (radius * 2))%Z). set (py := (k / (radius * 2))%Z).
  rewrite <- !mult_IZR, <- plus_IZR.
  assert (Hsq : (0 <= (px - radius) * (px - radius) + (py - radius) * (py - radius))%Z).
  { pose proof (Z.square_nonneg (px - radius)). pose proof (Z.square_nonneg (py - radius)). lia. }
  assert (Hrr : 0 <= IZR radius) by (apply IZR_le; lia).
  destruct (Z.leb_spec ((px - radius) * (px - radius) + (py - radius) * (py - radius))
                       (radius * radius)) as [Hle | Hgt].
  - apply leb_true_iff. apply sqrt_le_iff; [now apply IZR_le | assumption |].
    rewrite <- mult_IZR. now apply IZR_le.
  - apply leb_false_iff. apply Rnot_le_lt. intros Hle.
    apply sqrt_le_iff in Hle; [| now apply IZR_le | assumption].
    rewrite <- mult_IZR in Hle. apply le_IZR in Hle. lia.
Qed.

(** ** The sampler reaches the centre of its square *)

Lemma scanPixels_reaches (radius : Z) (n : nat) :
  forall (k : Z) (data : list Z),
    (4 * (n + 1) <= List.length data)%nat ->
    inDisc radius (k + Z.of_nat n) = true ->
    scanPixels radius k data <> [].
Proof.
  induction n as [| n IH]; intros k data Hlen Hin.
  - destruct data as [| r [| g [| b [| a rest]]]]; simpl in Hlen; try lia.
    simpl. replace (k + Z.of_nat 0)%Z with k in Hin by lia.
    rewrite Hin. discriminate.
  - destruct data as [| r [| g [| b [| a rest]]]]; simpl in Hlen; try lia.
    simpl. intros Happ. apply app_eq_nil in Happ as [_ Hrest].
    revert Hrest. apply IH; [lia |].
    now replace (k + 1 + Z.of_nat n)%Z with (k + Z.of_nat (S n))%Z by lia.
Qed.

Lemma centre_inDisc (radius : Z) :
  (0 < radius)%Z -> inDisc radius (radius * (radius * 2) + radius) = true.
Proof.
  intros Hr. rewrite inDisc_decide by assumption. unfold inDiscZ.
  assert (Hmod : ((radius * (radius * 2) + radius) mod (radius * 2) = radius)%Z).
  { rewrite Z.add_comm, Z.mod_add by lia. apply Z.mod_small. lia. }
  assert (Hdiv : ((radius * (radius * 2) + radius) / (radius * 2) = radius)%Z).
  { rewrite Z.add_comm, Z.div_add by lia. rewrite Z.div_small by lia. lia. }
  rewrite Hmod, Hdiv. apply Z.leb_le. nia.
Qed.

Lemma scanPixels_square_nonempty (radius : Z) (data : list Z) :
  (0 < radius)%Z ->
  List.length data = Z.to_nat (4 * (radius * 2) * (radius * 2)) ->
  scanPixels radius 0 data <> [].
Proof.
  intros Hr Hlen.
  apply scanPixels_reaches with (n := Z.to_nat (radius * (radius * 2) + radius)).
  - rewrite Hlen. nia.
  - rewrite Z2Nat.id by nia. simpl. now apply centre_inDisc.
Qed.

Lemma effectiveRadius_pos (radius : R) : (0 < effectiveRadius radius)%Z.
Proof. unfold effectiveRadius. lia. Qed.

Lemma getPixelData_nonempty (ctx : CanvasRenderingContext2D) (x y radius : R) :
  readsRectangles ctx -> getPixelData ctx x y radius <> [].
Proof.
  intros Hctx. unfold getPixelData.
  pose proof (effectiveRadius_pos radius) as Hr.
  destruct (Hctx (JsMath.round (x - IZR (effectiveRadius radius)))
                 (JsMath.round (y - IZR (effectiveRadius radius)))
                 (effectiveRadius radius * 2)%Z (effectiveRadius radius * 2)%Z)
    as [data [Hget Hlen]]; try lia.
  rewrite Hget. now apply scanPixels_square_nonempty.
Qed.

(** ** The loops as a row-major traversal *)

Lemma fold_push {A B : Type} (g : B -> list A) (l : list B) (acc : list A) :
  fold_left (fun acc i => acc ++ g i) l acc = acc ++ flat_map g l.
Proof.
  revert acc. induction l as [| i l IH]; intros acc; simpl.
  - now rewrite app_nil_r.
  - rewrite IH. now rewrite app_assoc.
Qed.

Lemma forLoop_push {A : Type} (n : nat) (f : nat -> A) (acc : list A) :
  forLoop n (fun i results => results ++ [f i]) acc = acc ++ map f (seq 0 n).
Proof.
  unfold forLoop. rewrite (fold_push (fun i => [f i])).
  apply f_equal. induction (seq 0 n) as [| i l IH]; simpl; congruence.
Qed.

Lemma forLoop_nested {A : Type} (n m : nat) (f : nat -> nat -> A) :
  forLoop n (fun row results => forLoop m (fun col results => results ++ [f row col]) results) []
  = flat_map (fun row => map (f row) (seq 0 m)) (seq 0 n).
Proof.
  unfold forLoop at 1. generalize (seq 0 n) as rows.
  assert (Hgen : forall rows acc,
             fold_left (fun acc row =>
                          forLoop m (fun col results => results ++ [f row col]) acc) rows acc
             = acc ++ flat_map (fun row => map (f row) (seq 0 m)) rows).
  { induction rows as [| row rows IH]; intros acc; simpl.
    - now rewrite app_nil_r.
    - rewrite IH, forLoop_push. now rewrite app_assoc. }
  intros rows. apply Hgen.
Qed.

(** ** Calibration and the result list *)

Section Invocation.

Variable ctx : CanvasRenderingContext2D.
Variables a1 h6 minColorPoint maxColorPoint : Point.

Lemma processWellPlate_cases :
  (referenceMissing ctx a1 h6 minColorPoint \/ referenceMissing ctx a1 h6 maxColorPoint)
  /\ processWellPlate (Loaded (Some ctx)) a1 h6 minColorPoint maxColorPoint
     = Rejected referenceError
  \/
  (~ referenceMissing ctx a1 h6 minColorPoint /\ ~ referenceMissing ctx a1 h6 maxColorPoint)
  /\ processWellPlate (Loaded (Some ctx)) a1 h6 minColorPoint maxColorPoint
     = Resolved (gridEntries ctx a1 h6 minColorPoint maxColorPoint).
Proof.
  unfold referenceMissing, processWellPlate.
  destruct (getPixelData ctx (pt_x minColorPoint) (pt_y minColorPoint) (gridRadius a1 h6))
    as [| p ps] eqn:Hmin.
  - left. split; [now left | reflexivity].
  - destruct (getPixelData ctx (pt_x maxColorPoint) (pt_y maxColorPoint) (gridRadius a1 h6))
      as [| q qs] eqn:Hmax.
    + left. split; [now right | reflexivity].
    + right. split; [split; discriminate |].
      cbn [List.length Nat.eqb orb]. f_equal.
      rewrite forLoop_nested. unfold gridEntries, calibratedEntry, referenceLab.
      now rewrite Hmin, Hmax.
Qed.

Lemma processWellPlate_resolved :
  ~ referenceMissing ctx a1 h6 minColorPoint ->
  ~ referenceMissing ctx a1 h6 maxColorPoint ->
  processWellPlate (Loaded (Some ctx)) a1 h6 minColorPoint maxColorPoint
  = Resolved (gridEntries ctx a1 h6 minColorPoint maxColorPoint).
Proof.
  intros Hmin Hmax.
  destruct processWellPlate_cases
    as [[[H | H] _] | [_ Heq]]; [contradiction | contradiction | exact Heq].
Qed.

Lemma gridEntries_lookup (row col : nat) (d : WellResult) :
  (row < NUM_ROWS)%nat -> (col < NUM_COLS)%nat ->
  nth (row * NUM_COLS + col) (gridEntries ctx a1 h6 minColorPoint maxColorPoint) d
  = calibratedEntry ctx a1 h6 minColorPoint maxColorPoint row col.
Proof.
  unfold NUM_ROWS, NUM_COLS, gridEntries. intros Hrow Hcol.
  do 8 (destruct row as [| row]; [do 6 (destruct col as [| col]; [reflexivity |]); lia |]).
  lia.
Qed.

Lemma gridEntries_In (w : WellResult) :
  In w (gridEntries ctx a1 h6 minColorPoint maxColorPoint) <->
  exists row col, (row < NUM_ROWS)%nat /\ (col < NUM_COLS)%nat
                  /\ w = calibratedEntry ctx a1 h6 minColorPoint maxColorPoint row col.
Proof.
  unfold gridEntries. rewrite in_flat_map. split.
  - intros [row [Hrow Hin]]. apply in_map_iff in Hin as [col [Heq Hcol]].
    apply in_seq in Hrow. apply in_seq in Hcol.
    exists row, col. repeat split; try lia. now symmetry.
  - intros [row [col [Hrow [Hcol ->]]]]. exists row. split.
    + apply in_seq. lia.
    + apply in_map. apply in_seq. lia.
Qed.

Lemma gridEntries_length :
  List.length (gridEntries ctx a1 h6 minColorPoint maxColorPoint) = 48%nat.
Proof. reflexivity. Qed.

Lemma gridEntries_ids :
  map w_id (gridEntries ctx a1 h6 minColorPoint maxColorPoint) = plateIds.
Proof. reflexivity. Qed.

End Invocation.

Lemma processWellPlate_resolved_inv (load : ImageLoad)
    (a1 h6 minColorPoint maxColorPoint : Point) (results : list WellResult) :
  processWellPlate load a1 h6 minColorPoint maxColorPoint = Resolved results ->
  exists ctx,
    load = Loaded (Some ctx)
    /\ ~ referenceMissing ctx a1 h6 minColorPoint
    /\ ~ referenceMissing ctx a1 h6 maxColorPoint
    /\ results = gridEntries ctx a1 h6 minColorPoint maxColorPoint.
Proof.
  intros Hrun. destruct load as [| [ctx |]]; try discriminate.
  exists ctx.
  destruct (processWellPlate_cases ctx a1 h6 minColorPoint maxColorPoint)
    as [[_ Heq] | [[Hmin Hmax] Heq]]; rewrite Heq in Hrun; [discriminate |].
  injection Hrun as <-. auto.
Qed.

(** ** The scorer *)


Lemma clampUnit_monotone (u v : R) : u <= v -> clampUnit u <= clampUnit v.
Proof.
  intros Huv. unfold clampUnit, JsMath.max, JsMath.min.
  apply Rle_max_compat_l. now apply Rle_min_compat_l.
Qed.

Lemma magnitudeSquared_dot (v : Lab) : magnitudeSquared v = dot v v.
Proof. unfold magnitudeSquared, dot. now rewrite !pow_two. Qed.

Lemma scoreLab_scored (labMin gradientVector : Lab) (gradientMagSq : R) (labWell : Lab) :
  gradientMagSq > 1e-6 ->
  scoreLab labMin gradientVector gradientMagSq true labWell
  = (clampUnit (dot (gradientOf labMin labWell) gradientVector / gradientMagSq),
     JsMath.pow (clampUnit (dot (gradientOf labMin labWell) gradientVector / gradientMagSq)) 2
     * 10000).
Proof.
  intros Hmag. unfold scoreLab.
  assert (Hgt : (gradientMagSq >? 1e-6) = true) by (apply gtb_true_iff; lra).
  now rewrite Hgt.
Qed.

Lemma scoreLab_degenerate (labMin gradientVector : Lab) (gradientMagSq : R)
    (hadPixels : bool) (labWell : Lab) :
  hadPixels = false \/ gradientMagSq <= 1e-6 ->
  scoreLab labMin gradientVector gradientMagSq hadPixels labWell = (0, 0).
Proof.
  intros [-> | Hmag]; unfold scoreLab; [reflexivity |].
  assert (Hgt : (gradientMagSq >? 1e-6) = false) by now apply gtb_false_iff.
  rewrite Hgt. now rewrite andb_false_r.
Qed.



(** C9. For a fixed calibration axis whose squared length exceeds 1e-6 the
    scorer is monotone along the axis: if the projections of two well
    colours X and Y lie in [0, squared length] and that of X is smaller,
    the intensity given to X is at most the intensity given to Y. *)
Theorem scorer_monotone_along_axis
    (origin vector : Lab) (vectorMagnitudeSquared : R) (hadPixels : bool) (X Y : Lab) :
  vectorMagnitudeSquared > 1e-6 ->
  0 <= dot (gradientOf origin X) vector <= vectorMagnitudeSquared ->
  0 <= dot (gradientOf origin Y) vector <= vectorMagnitudeSquared ->
  dot (gradientOf origin X) vector < dot (gradientOf origin Y) vector ->
  fst (scoreLab origin vector vectorMagnitudeSquared hadPixels X)
  <= fst (scoreLab origin vector vectorMagnitudeSquared hadPixels Y).
Proof.
  intros Hmag _ _ Hlt. destruct hadPixels.
  - rewrite !scoreLab_scored by assumption. cbn [fst].
    apply clampUnit_monotone.
    unfold Rdiv. apply Rmult_le_compat_r; [| lra].
    apply Rlt_le, Rinv_0_lt_compat. lra.
  - rewrite !scoreLab_degenerate by now left. cbn [fst]. lra.
Qed.

Lemma scorer_monotone_along_axis_witness :
  fst (scoreLab (mkLab 0 0 0) (mkLab 1 0 0) 1 true (mkLab (1 / 4) 0 0))
  <= fst (scoreLab (mkLab 0 0 0) (mkLab 1 0 0) 1 true (mkLab (1 / 2) 0 0)).
Proof.
  apply (scorer_monotone_along_axis (mkLab 0 0 0) (mkLab 1 0 0) 1 true
           (mkLab (1 / 4) 0 0) (mkLab (1 / 2) 0 0));
    unfold dot, gradientOf; cbn [lab_l lab_a lab_b]; lra.
Defined.

(** ** Shape of the result list *)

Lemma plateIds_NoDup : NoDup plateIds.
Proof.
  assert (Hfix : nodup string_dec plateIds = plateIds) by (vm_compute; reflexivity).
  rewrite <- Hfix. apply NoDup_nodup.
Qed.

Lemma wellId_format (row col : nat) :
  (row < NUM_ROWS)%nat -> (col < NUM_COLS)%nat ->
  wellId row col = String (nth row rowLetters " "%char) (nth col columnNumbers ""%string).
Proof.
  unfold NUM_ROWS, NUM_COLS. intros Hrow Hcol.
  do 8 (destruct row as [| row]; [do 6 (destruct col as [| col]; [reflexivity |]); lia |]).
  lia.
Qed.

(** C2. Every resolved run returns exactly 48 entries in row-major order
    (A1..A6, B1..B6, ..., H1..H6); the entry at position [row * 6 + col]
    records [row] and [col] and has the id made of the row letter A-H and
    the 1-based column number 1-6; every id of the grid occurs once. *)
Theorem resolved_run_has_plate_shape
    (load : ImageLoad) (a1 h6 minColorPoint maxColorPoint : Point)
    (results : list WellResult) :
  processWellPlate load a1 h6 minColorPoint maxColorPoint = Resolved results ->
  List.length results = 48%nat
  /\ map w_id results = plateIds
  /\ NoDup (map w_id results)
  /\ (forall id, In id plateIds <-> In id (map w_id results))
  /\ forall (row col : nat) (d : WellResult),
       (row < 8)%nat -> (col < 6)%nat ->
       let w := nth (row * 6 + col) results d in
       w_row w = row /\ w_col w = col
       /\ w_id w = String (nth row rowLetters " "%char) (nth col columnNumbers ""%string).
Proof.
  intros Hrun.
  apply processWellPlate_resolved_inv in Hrun as [ctx [_ [_ [_ ->]]]].
  split; [apply gridEntries_length |].
  split; [apply gridEntries_ids |].
  split; [rewrite gridEntries_ids; apply plateIds_NoDup |].
  split; [intros id; now rewrite gridEntries_ids |].
  intros row col d Hrow Hcol w. subst w.
  change 6%nat with NUM_COLS.
  rewrite !gridEntries_lookup by assumption.
  unfold calibratedEntry, wellEntry. cbn [w_row w_col w_id].
  repeat split. now apply wellId_format.
Qed.

(** ** Failure and success *)

(** C4. The run is rejected with the reference-colour error exactly when
    the image loaded, a context was obtained and one of the two reference
    points sampled no pixel; and every run either is rejected with one
    error and no result list, or resolves with all 48 entries. *)
Theorem calibration_failure_iff_empty_reference
    (load : ImageLoad) (a1 h6 minColorPoint maxColorPoint : Point) :
  (processWellPlate load a1 h6 minColorPoint maxColorPoint = Rejected referenceError
   <-> exists ctx, load = Loaded (Some ctx)
                   /\ (referenceMissing ctx a1 h6 minColorPoint
                       \/ referenceMissing ctx a1 h6 maxColorPoint))
  /\ ((exists reason, processWellPlate load a1 h6 minColorPoint maxColorPoint = Rejected reason)
      \/ (exists results,
            processWellPlate load a1 h6 minColorPoint maxColorPoint = Resolved results
            /\ List.length results = 48%nat)).
Proof.
  destruct load as [| [ctx |]].
  - split; [| left; now exists LoadErrorEvent].
    split; [discriminate | intros [ctx [Hload _]]; discriminate].
  - destruct (processWellPlate_cases ctx a1 h6 minColorPoint maxColorPoint)
      as [[Hmiss Heq] | [[Hmin Hmax] Heq]]; rewrite Heq.
    + split; [| left; now exists referenceError].
      split; [intros _; now exists ctx | reflexivity].
    + split.
      * split; [discriminate |].
        intros [ctx' [Hload [H | H]]]; injection Hload as <-; contradiction.
      * right. exists (gridEntries ctx a1 h6 minColorPoint maxColorPoint).
        split; [reflexivity | apply gridEntries_length].
  - split; [| left; now exists noContextError].
    split; [discriminate | intros [ctx [Hload _]]; discriminate].
Qed.

(** ** Degenerate wells *)

Lemma identical_references_flat_axis (labMin labMax : Lab) :
  labMin = labMax -> magnitudeSquared (gradientOf labMin labMax) = 0.
Proof.
  intros ->. rewrite magnitudeSquared_dot. unfold dot, gradientOf.
  cbn [lab_l lab_a lab_b]. ring.
Qed.

Lemma calibratedEntry_degenerate (ctx : CanvasRenderingContext2D)
    (a1 h6 minColorPoint maxColorPoint : Point) (row col : nat) :
  let w := calibratedEntry ctx a1 h6 minColorPoint maxColorPoint row col in
  sampleOf ctx a1 h6 w = []
  \/ magnitudeSquared (gradientOf (referenceLab ctx a1 h6 minColorPoint)
                                  (referenceLab ctx a1 h6 maxColorPoint)) <= 1e-6 ->
  intensity w = 0 /\ cellCount w = 0.
Proof.
  intros w Hdeg. subst w. unfold sampleOf in Hdeg.
  unfold calibratedEntry, wellEntry in *. cbn [intensity cellCount center pt_x pt_y] in *.
  rewrite scoreLab_degenerate; [now split |].
  destruct Hdeg as [Hempty | Hflat]; [left | now right].
  now rewrite Hempty.
Qed.

Lemma calibratedEntry_local (ctx ctx' : CanvasRenderingContext2D)
    (a1 h6 minColorPoint maxColorPoint : Point) (row col : nat) :
  let sample c p := getPixelData c (pt_x p) (pt_y p) (gridRadius a1 h6) in
  sample ctx minColorPoint = sample ctx' minColorPoint ->
  sample ctx maxColorPoint = sample ctx' maxColorPoint ->
  sample ctx (center (calibratedEntry ctx a1 h6 minColorPoint maxColorPoint row col))
  = sample ctx' (center (calibratedEntry ctx a1 h6 minColorPoint maxColorPoint row col)) ->
  calibratedEntry ctx a1 h6 minColorPoint maxColorPoint row col
  = calibratedEntry ctx' a1 h6 minColorPoint maxColorPoint row col.
Proof.
  intros sample Hmin Hmax Hown. subst sample.
  unfold calibratedEntry, wellEntry, referenceLab in *. cbn [center pt_x pt_y] in Hown.
  now rewrite Hmin, Hmax, Hown.
Qed.

(** C3. When both reference samples hold pixels the run resolves with 48
    entries whatever the wells sample; a well whose own sample is empty, or
    any well when the squared length of the calibration vector is at most
    1e-6 (in particular when both references give the same colour), gets
    intensity 0 and cell count 0; and the entry of a well is determined by
    the two reference samples and its own sample alone. *)
Theorem degenerate_wells_score_zero
    (ctx : CanvasRenderingContext2D) (a1 h6 minColorPoint maxColorPoint : Point) :
  ~ referenceMissing ctx a1 h6 minColorPoint ->
  ~ referenceMissing ctx a1 h6 maxColorPoint ->
  let origin := referenceLab ctx a1 h6 minColorPoint in
  let vector := gradientOf origin (referenceLab ctx a1 h6 maxColorPoint) in
  let vectorMagnitudeSquared :=
    lab_l vector * lab_l vector + lab_a vector * lab_a vector + lab_b vector * lab_b vector in
  let sample c p := getPixelData c (pt_x p) (pt_y p) (gridRadius a1 h6) in
  exists results,
    processWellPlate (Loaded (Some ctx)) a1 h6 minColorPoint maxColorPoint = Resolved results
    /\ List.length results = 48%nat
    /\ (forall w, In w results ->
          sample ctx (center w) = [] \/ vectorMagnitudeSquared <= 1e-6 ->
          intensity w = 0 /\ cellCount w = 0)
    /\ (getRobustAverageColor (sample ctx minColorPoint)
        = getRobustAverageColor (sample ctx maxColorPoint) ->
        vectorMagnitudeSquared <= 1e-6
        /\ forall w, In w results -> intensity w = 0 /\ cellCount w = 0)
    /\ (forall ctx' row col d,
          (row < 8)%nat -> (col < 6)%nat ->
          sample ctx minColorPoint = sample ctx' minColorPoint ->
          sample ctx maxColorPoint = sample ctx' maxColorPoint ->
          sample ctx (center (nth (row * 6 + col) results d))
          = sample ctx' (center (nth (row * 6 + col) results d)) ->
          nth (row * 6 + col) results d
          = calibratedEntry ctx' a1 h6 minColorPoint maxColorPoint row col).
Proof.
  intros Hmin Hmax origin vector vms sample.
  exists (gridEntries ctx a1 h6 minColorPoint maxColorPoint).
  assert (Hvms : magnitudeSquared vector = vms)
    by (rewrite magnitudeSquared_dot; reflexivity).
  split; [now apply processWellPlate_resolved |].
  split; [apply gridEntries_length |].
  assert (Hzero : forall w,
             In w (gridEntries ctx a1 h6 minColorPoint maxColorPoint) ->
             sample ctx (center w) = [] \/ vms <= 1e-6 ->
             intensity w = 0 /\ cellCount w = 0).
  { intros w Hin Hdeg. apply gridEntries_In in Hin as [row [col [_ [_ ->]]]].
    apply calibratedEntry_degenerate. fold origin. fold vector. now rewrite Hvms. }
  split; [exact Hzero |].
  split.
  - intros Hsame.
    assert (Hflat : vms <= 1e-6).
    { rewrite <- Hvms. subst vector origin. unfold referenceLab.
      fold (sample ctx minColorPoint). fold (sample ctx maxColorPoint).
      rewrite identical_references_flat_axis by now rewrite Hsame. lra. }
    split; [exact Hflat |]. intros w Hin. apply Hzero; [assumption | now right].
  - intros ctx' row col d Hrow Hcol Hsmin Hsmax.
    change 6%nat with NUM_COLS.
    rewrite gridEntries_lookup by assumption.
    now apply calibratedEntry_local.
Qed.

(** ** Grid geometry *)

(** C8. In a resolved run the column step is (h6.x - a1.x) / 5 and the row
    step (h6.y - a1.y) / 7; the entry of well (row, col) is centred at a1
    plus col column steps and row row steps; every well and both references
    are sampled with the radius min(|column step|, |row step|) times the
    constant 0.30, which lies in [0.25, 0.35] and below 0.5. *)
Theorem grid_is_affine_in_landmarks
    (ctx : CanvasRenderingContext2D) (a1 h6 minColorPoint maxColorPoint : Point)
    (results : list WellResult) (row col : nat) (d : WellResult) :
  processWellPlate (Loaded (Some ctx)) a1 h6 minColorPoint maxColorPoint = Resolved results ->
  (row < 8)%nat -> (col < 6)%nat ->
  let columnStep := (pt_x h6 - pt_x a1) / 5 in
  let rowStep := (pt_y h6 - pt_y a1) / 7 in
  let radius := Rmin (Rabs columnStep) (Rabs rowStep) * WELL_RADIUS_FACTOR in
  let w := nth (row * 6 + col) results d in
  center w = {| pt_x := pt_x a1 + INR col * columnStep; pt_y := pt_y a1 + INR row * rowStep |}
  /\ avgColor w
     = getRobustAverageColor (getPixelData ctx (pt_x (center w)) (pt_y (center w)) radius)
  /\ referenceLab ctx a1 h6 minColorPoint
     = rgbToLab (getRobustAverageColor
                   (getPixelData ctx (pt_x minColorPoint) (pt_y minColorPoint) radius))
  /\ referenceLab ctx a1 h6 maxColorPoint
     = rgbToLab (getRobustAverageColor
                   (getPixelData ctx (pt_x maxColorPoint) (pt_y maxColorPoint) radius))
  /\ 0.25 <= WELL_RADIUS_FACTOR <= 0.35
  /\ WELL_RADIUS_FACTOR < 0.5.
Proof.
  intros Hrun Hrow Hcol columnStep rowStep radius w.
  apply processWellPlate_resolved_inv in Hrun as [ctx' [Hctx [_ [_ ->]]]].
  injection Hctx as <-.
  assert (Hdx : gridStepX a1 h6 = columnStep).
  { unfold gridStepX, columnStep. rewrite INR_NUM_COLS. f_equal. lra. }
  assert (Hdy : gridStepY a1 h6 = rowStep).
  { unfold gridStepY, rowStep. rewrite INR_NUM_ROWS. f_equal. lra. }
  assert (Hrad : gridRadius a1 h6 = radius).
  { unfold gridRadius, radius, JsMath.min, JsMath.abs. now rewrite Hdx, Hdy. }
  subst w. change 6%nat with NUM_COLS.
  rewrite gridEntries_lookup by assumption.
  unfold calibratedEntry, wellEntry, referenceLab. cbn [center avgColor pt_x pt_y].
  rewrite Hdx, Hdy, Hrad.
  repeat split; unfold WELL_RADIUS_FACTOR; lra.
Qed.

(** ** The colour round trip *)

Lemma ln_nonpos (w : R) : 0 < w <= 1 -> ln w <= 0.
Proof.
  intros [Hpos Hle]. destruct (Req_dec w 1) as [-> | Hne].
  - rewrite ln_1. lra.
  - rewrite <- ln_1. apply Rlt_le, ln_increasing; lra.
Qed.

Lemma exp_monotone (a b : R) : a <= b -> exp a <= exp b.
Proof.
  intros [Hlt | ->]; [apply Rlt_le, exp_increasing; assumption | lra].
Qed.

(** On a base in (0, 1] a larger exponent gives a smaller power. *)
Lemma Rpower_small_base (w a b : R) : 0 < w <= 1 -> a <= b -> Rpower w b <= Rpower w a.
Proof.
  intros Hw Hab. unfold Rpower. apply exp_monotone.
  pose proof (ln_nonpos w Hw). nra.
Qed.

Lemma Rpower_large_base (w a b : R) : 1 <= w -> a <= b -> Rpower w a <= Rpower w b.
Proof.
  intros Hw Hab. unfold Rpower. apply exp_monotone.
  assert (0 <= ln w).
  { destruct (Req_dec w 1) as [-> | Hne]; [rewrite ln_1; lra |].
    rewrite <- ln_1. apply Rlt_le, ln_increasing; lra. }
  nra.
Qed.

Lemma Rpower_two (x : R) : 0 < x -> Rpower x 2 = x * x.
Proof. intros Hx. rewrite <- pow_positive by assumption. apply pow_two. Qed.

Lemma Rpower_three (x : R) : 0 < x -> Rpower x 3 = x * x * x.
Proof. intros Hx. rewrite <- pow_positive by assumption. apply pow_three. Qed.

Lemma cube_root_cubed (t : R) :
  0 < t -> Rpower t (1 / 3) * Rpower t (1 / 3) * Rpower t (1 / 3) = t.
Proof.
  intros Ht. rewrite <- !Rpower_plus.
  replace (1 / 3 + 1 / 3 + 1 / 3) with 1 by lra. now apply Rpower_1.
Qed.

Lemma Rpower_gamma_inverse (x : R) : 0 < x -> Rpower (Rpower x 2.4) (1 / 2.4) = x.
Proof.
  intros Hx. rewrite Rpower_mult. replace (2.4 * (1 / 2.4)) with 1 by lra.
  now apply Rpower_1.
Qed.

Lemma Rpower_gamma_fifth (x : R) : 0 < x -> (Rpower x 2.4) ^ 5 = x ^ 12.
Proof.
  intros Hx. rewrite <- Rpower_pow by apply exp_pos.
  rewrite Rpower_mult. replace (2.4 * INR 5) with (INR 12) by (simpl; lra).
  now apply Rpower_pow.
Qed.

Lemma Rpower_gamma_floor (w : R) : 0.093 <= w -> 0.0033 < Rpower w 2.4.
Proof.
  intros Hw. apply Rnot_le_lt. intros Hle.
  assert (Hpos : 0 < Rpower w 2.4) by apply exp_pos.
  assert (H5 : (Rpower w 2.4) ^ 5 <= 0.0033 ^ 5) by (apply pow_incr; lra).
  rewrite Rpower_gamma_fifth in H5 by lra.
  assert (H12 : 0.093 ^ 12 <= w ^ 12) by (apply pow_incr; lra).
  assert (Hnum : 0.0033 ^ 5 < 0.093 ^ 12) by lra.
  lra.
Qed.

Lemma gammaSlack_range : 0 < gammaSlack < 0.002.
Proof. unfold gammaSlack. lra. Qed.

Section GammaStep.

(** The argument of the power law for a channel of 11 or more. *)
Variable w : R.
Hypothesis w_range : 0.093 <= w <= 1.

Lemma gamma_cube_below : w * w * w <= Rpower w 2.4.
Proof. rewrite <- Rpower_three by lra. apply Rpower_small_base; lra. Qed.

Lemma gamma_ratio_below : gammaSlack * (0.093 * 0.093) <= Rpower w 2.4 * (gammaSlack / w).
Proof.
  pose proof gammaSlack_range as Hd. pose proof gamma_cube_below as Hcube.
  replace (Rpower w 2.4 * (gammaSlack / w))
    with (gammaSlack * (Rpower w 2.4 / w)) by (field; lra).
  apply Rmult_le_compat_l; [lra |].
  apply Rle_trans with (w * w); [nra |].
  apply Rmult_le_reg_r with w; [lra |].
  replace (Rpower w 2.4 / w * w) with (Rpower w 2.4) by (field; lra). lra.
Qed.

Lemma Rpower_step_up : Rpower w 2.4 + 0.000015 < Rpower (w + gammaSlack) 2.4.
Proof.
  pose proof gammaSlack_range as Hd. pose proof gamma_ratio_below as Hratio.
  set (t := gammaSlack / w) in *.
  assert (Ht : 0 < t) by (unfold t; apply Rdiv_lt_0_compat; lra).
  assert (Hsplit : w + gammaSlack = w * (1 + t)) by (unfold t; field; lra).
  rewrite Hsplit, <- Rpower_mult_distr by lra.
  assert (Hgrow : 1 + 2 * t <= Rpower (1 + t) 2.4).
  { apply Rle_trans with (Rpower (1 + t) 2).
    - rewrite Rpower_two by lra. nra.
    - apply Rpower_large_base; lra. }
  assert (HW : 0 < Rpower w 2.4) by apply exp_pos.
  assert (Hnum : 0.000015 < 2 * (gammaSlack * (0.093 * 0.093))) by (unfold gammaSlack; lra).
  assert (Hmul : Rpower w 2.4 * (1 + 2 * t) <= Rpower w 2.4 * Rpower (1 + t) 2.4).
  { apply Rmult_le_compat_l; lra. }
  lra.
Qed.

Lemma Rpower_step_down : Rpower (w - gammaSlack) 2.4 <= Rpower w 2.4 - 0.000015.
Proof.
  pose proof gammaSlack_range as Hd. pose proof gamma_ratio_below as Hratio.
  set (t := gammaSlack / w) in *.
  assert (Ht : 0 < t) by (unfold t; apply Rdiv_lt_0_compat; lra).
  assert (Ht1 : t < 1).
  { unfold t. apply Rmult_lt_reg_r with w; [lra |].
    replace (gammaSlack / w * w) with gammaSlack by (field; lra). lra. }
  assert (Hsplit : w - gammaSlack = w * (1 - t)) by (unfold t; field; lra).
  rewrite Hsplit, <- Rpower_mult_distr by lra.
  assert (Hshrink : Rpower (1 - t) 2.4 <= 1 - t).
  { rewrite <- (Rpower_1 (1 - t)) at 2 by lra. apply Rpower_small_base; lra. }
  assert (HW : 0 < Rpower w 2.4) by apply exp_pos.
  assert (Hnum : 0.000015 < gammaSlack * (0.093 * 0.093)) by (unfold gammaSlack; lra).
  assert (Hmul : Rpower w 2.4 * Rpower (1 - t) 2.4 <= Rpower w 2.4 * (1 - t)).
  { apply Rmult_le_compat_l; lra. }
  lra.
Qed.

End GammaStep.

(** [labFInv] undoes [labF] up to the mismatch of the two thresholds
    (0.206897 cubed is a little above 0.008856). *)
Lemma labF_inverse (t : R) : 0 <= t -> - 0.000001 <= labFInv (labF t) - t <= 0.000001.
Proof.
  intros Ht. unfold labF.
  destruct (t >? 0.008856) eqn:Hbranch.
  - apply gtb_true_iff in Hbranch.
    assert (Hpos : 0 < t) by lra.
    rewrite pow_positive by assumption.
    pose proof (cube_root_cubed t Hpos) as Hcube.
    set (s := Rpower t (1 / 3)) in *.
    assert (Hs : 0 < s) by apply exp_pos.
    unfold labFInv. destruct (s >? 0.206897) eqn:Hs2.
    + rewrite pow_three, Hcube. lra.
    + apply gtb_false_iff in Hs2.
      assert (Hlow : 0.206893 < s).
      { apply Rnot_le_lt. intros Hle.
        assert (s * s * s <= 0.206893 * 0.206893 * 0.206893).
        { apply Rmult_le_compat; try nra. }
        lra. }
      assert (Hup : s * s * s <= 0.206897 * 0.206897 * 0.206897).
      { apply Rmult_le_compat; try nra. }
      lra.
  - apply gtb_false_iff in Hbranch.
    unfold labFInv.
    assert (Hs2 : (7.787 * t + 16 / 116 >? 0.206897) = false) by (apply gtb_false_iff; lra).
    rewrite Hs2. lra.
Qed.

Lemma srgbToLinear_unit (u : R) : 0 <= u <= 1 -> 0 <= srgbToLinear u <= 1.
Proof.
  intros [Hlo Hhi]. unfold srgbToLinear.
  destruct (u >? 0.04045) eqn:Hbranch.
  - apply gtb_true_iff in Hbranch.
    rewrite pow_positive by (apply Rdiv_lt_0_compat; lra).
    split; [apply Rlt_le, exp_pos |].
    rewrite <- (Rpower_O ((u + 0.055) / 1.055)) by (apply Rdiv_lt_0_compat; lra).
    apply Rpower_small_base; [| lra].
    split; [apply Rdiv_lt_0_compat; lra |].
    apply Rmult_le_reg_r with 1.055; [lra |].
    replace ((u + 0.055) / 1.055 * 1.055) with (u + 0.055) by (field; lra). lra.
  - apply gtb_false_iff in Hbranch. split; lra.
Qed.

(** A linear-light value within 1.5e-5 of the gamma expansion of channel
    [c] is compressed, scaled and rounded back to [c]. *)
Lemma channel_roundtrip (c : Z) (v : R) :
  (0 <= c <= 255)%Z ->
  - 0.000015 <= v - srgbToLinear (IZR c / 255) <= 0.000015 ->
  clamp255 (toSrgb v) = c.
Proof.
  intros Hc Hnear.
  assert (Hround : JsMath.round (toSrgb v * 255) = c); [| unfold clamp255; lia].
  assert (Hc0 : 0 <= IZR c <= 255) by (split; apply IZR_le; lia).
  destruct (Z_le_gt_dec c 10) as [Hsmall | Hbig].
  - assert (Hc10 : IZR c <= 10) by (apply IZR_le; lia).
    unfold srgbToLinear in Hnear.
    assert (Hb : (IZR c / 255 >? 0.04045) = false) by (apply gtb_false_iff; lra).
    rewrite Hb in Hnear.
    unfold toSrgb.
    assert (Hb' : (v >? 0.0031308) = false) by (apply gtb_false_iff; lra).
    rewrite Hb'. apply round_eq. lra.
  - assert (Hc11 : 11 <= IZR c) by (apply IZR_le; lia).
    unfold srgbToLinear in Hnear.
    assert (Hb : (IZR c / 255 >? 0.04045) = true) by (apply gtb_true_iff; lra).
    rewrite Hb in Hnear.
    set (w := (IZR c / 255 + 0.055) / 1.055) in *.
    assert (Hw : 0.093 <= w <= 1) by (unfold w; split; lra).
    rewrite pow_positive in Hnear by lra.
    pose proof (Rpower_gamma_floor w (proj1 Hw)) as Hfloor.
    pose proof (Rpower_step_up w Hw) as Hup.
    pose proof (Rpower_step_down w Hw) as Hdown.
    pose proof gammaSlack_range as Hd.
    unfold toSrgb.
    assert (Hb' : (v >? 0.0031308) = true) by (apply gtb_true_iff; lra).
    rewrite Hb'. rewrite pow_positive by lra.
    assert (Hhi : Rpower v (1 / 2.4) < w + gammaSlack).
    { rewrite <- (Rpower_gamma_inverse (w + gammaSlack)) by lra.
      apply Rlt_Rpower_l; lra. }
    assert (Hlo : w - gammaSlack <= Rpower v (1 / 2.4)).
    { rewrite <- (Rpower_gamma_inverse (w - gammaSlack)) by lra.
      apply Rle_Rpower_l; [lra |]. split; [apply exp_pos | lra]. }
    apply round_eq. unfold w, gammaSlack in *. lra.
Qed.

Lemma channel_unit (c : Z) : (0 <= c <= 255)%Z -> 0 <= IZR c / 255 <= 1.
Proof.
  intros Hc. assert (0 <= IZR c <= 255) by (split; apply IZR_le; lia). lra.
Qed.

Lemma labToRgb_rgbToLab (c : RGB) : inGamut c -> labToRgb (rgbToLab c) = c.
Proof.
  destruct c as [r g b]. unfold inGamut. cbn [rgb_r rgb_g rgb_b].
  intros [Hr [Hg Hb]].
  pose proof (srgbToLinear_unit _ (channel_unit r Hr)) as Hlr.
  pose proof (srgbToLinear_unit _ (channel_unit g Hg)) as Hlg.
  pose proof (srgbToLinear_unit _ (channel_unit b Hb)) as Hlb.
  unfold labToRgb, rgbToLab. cbn [lab_l lab_a lab_b rgb_r rgb_g rgb_b].
  set (lr := srgbToLinear (IZR r / 255)) in *.
  set (lg := srgbToLinear (IZR g / 255)) in *.
  set (lb := srgbToLinear (IZR b / 255)) in *.
  set (vx := (lr * 0.4124564 + lg * 0.3575761 + lb * 0.1804375) / 0.95047).
  set (vy := (lr * 0.2126729 + lg * 0.7151522 + lb * 0.0721750) / 1.00000).
  set (vz := (lr * 0.0193339 + lg * 0.1191920 + lb * 0.9503041) / 1.08883).
  replace ((116 * labF vy - 16 + 16) / 116) with (labF vy) by lra.
  replace (500 * (labF vx - labF vy) / 500 + labF vy) with (labF vx) by lra.
  replace (labF vy - 200 * (labF vy - labF vz) / 200) with (labF vz) by lra.
  assert (Hvx : 0 <= vx) by (unfold vx; lra).
  assert (Hvy : 0 <= vy) by (unfold vy; lra).
  assert (Hvz : 0 <= vz) by (unfold vz; lra).
  pose proof (labF_inverse vx Hvx) as Hx.
  pose proof (labF_inverse vy Hvy) as Hy.
  pose proof (labF_inverse vz Hvz) as Hz.
  set (hx := labFInv (labF vx)) in *.
  set (hy := labFInv (labF vy)) in *.
  set (hz := labFInv (labF vz)) in *.
  f_equal; apply channel_roundtrip; try assumption; fold lr lg lb;
    unfold vx, vy, vz in *; lra.
Qed.

(** C6. For every colour with whole channels in [0, 255], converting to
    Lab and back gives a colour each of whose channels differs from the
    original by at most 1. *)
Theorem roundtrip_within_one (c : RGB) :
  (0 <= rgb_r c <= 255)%Z -> (0 <= rgb_g c <= 255)%Z -> (0 <= rgb_b c <= 255)%Z ->
  let c' := labToRgb (rgbToLab c) in
  (Z.abs (rgb_r c' - rgb_r c) <= 1)%Z
  /\ (Z.abs (rgb_g c' - rgb_g c) <= 1)%Z
  /\ (Z.abs (rgb_b c' - rgb_b c) <= 1)%Z.
Proof.
  intros Hr Hg Hb c'. subst c'.
  rewrite labToRgb_rgbToLab by (unfold inGamut; auto).
  repeat split; lia.
Qed.

Lemma roundtrip_within_one_witness :
  let c := {| rgb_r := 10; rgb_g := 128; rgb_b := 255 |} in
  let c' := labToRgb (rgbToLab c) in
  (Z.abs (rgb_r c' - rgb_r c) <= 1)%Z
  /\ (Z.abs (rgb_g c' - rgb_g c) <= 1)%Z
  /\ (Z.abs (rgb_b c' - rgb_b c) <= 1)%Z.
Proof.
  apply (roundtrip_within_one {| rgb_r := 10; rgb_g := 128; rgb_b := 255 |});
    cbn [rgb_r rgb_g rgb_b]; lia.
Defined.

(** ** The radius floor of the sampler *)

Lemma effectiveRadius_small (radius : R) : radius < 1 / 2 -> effectiveRadius radius = 1%Z.
Proof.
  intros Hr. unfold effectiveRadius.
  pose proof (round_below_half radius Hr). lia.
Qed.


Lemma scan_two_by_two (r0 g0 b0 a0 r1 g1 b1 a1 r2 g2 b2 a2 r3 g3 b3 a3 : Z) :
  scanPixels 1 0 [r0; g0; b0; a0; r1; g1; b1; a1; r2; g2; b2; a2; r3; g3; b3; a3]
  = [ {| rgb_r := r1; rgb_g := g1; rgb_b := b1 |};
      {| rgb_r := r2; rgb_g := g2; rgb_b := b2 |};
      {| rgb_r := r3; rgb_g := g3; rgb_b := b3 |} ].
Proof.
  cbn [scanPixels]. rewrite !inDisc_decide by lia. reflexivity.
Qed.

Lemma getPixelData_small_radius (ctx : CanvasRenderingContext2D) (x y radius : R) :
  radius < 1 / 2 ->
  getPixelData ctx x y radius
  = match getImageData ctx (JsMath.round (x - 1)) (JsMath.round (y - 1)) 2 2 with
    | Some data => scanPixels 1 0 data
    | None => []
    end.
Proof.
  intros Hr. unfold getPixelData. now rewrite (effectiveRadius_small radius Hr).
Qed.


(** ** A concrete canvas *)

Lemma flat_map_length_const {A B : Type} (f : A -> list B) (k : nat) (l : list A) :
  (forall a, List.length (f a) = k) -> List.length (flat_map f l) = (k * List.length l)%nat.
Proof.
  intros Hk. induction l as [| a l IH]; simpl; [lia |].
  rewrite length_app, Hk, IH. lia.
Qed.

Lemma zrange_length (n : Z) : List.length (zrange n) = Z.to_nat n.
Proof. unfold zrange. now rewrite length_map, length_seq. Qed.

Lemma canvasOf_readsRectangles (width height : Z) (pixel : Z -> Z -> RGB) :
  readsRectangles (canvasOf width height pixel).
Proof.
  intros sx sy sw sh Hsw Hsh. cbn [canvasOf getImageData].
  assert (Hnz : ((sw =? 0) || (sh =? 0))%Z = false).
  { apply orb_false_iff. split; apply Z.eqb_neq; lia. }
  rewrite Hnz. eexists. split; [reflexivity |].
  rewrite (flat_map_length_const _ (4 * Z.to_nat (Z.abs sw))).
  - rewrite zrange_length. rewrite !Z.abs_eq by lia. nia.
  - intros j. rewrite (flat_map_length_const _ 4); [| reflexivity].
    now rewrite zrange_length.
Qed.

Lemma canvasOf_small_sample (width height : Z) (pixel : Z -> Z -> RGB)
    (xi yi : Z) (radius : R) :
  radius < 1 / 2 ->
  getPixelData (canvasOf width height pixel) (IZR xi) (IZR yi) radius
  = [ canvasColor width height pixel xi (yi - 1);
      canvasColor width height pixel (xi - 1) yi;
      canvasColor width height pixel xi yi ].
Proof.
  intros Hr. rewrite getPixelData_small_radius by assumption.
  rewrite <- !minus_IZR, !round_whole.
  cbn [canvasOf getImageData Z.eqb orb].
  replace (Z.min (xi - 1) (xi - 1 + 2)) with (xi - 1)%Z by lia.
  replace (Z.min (yi - 1) (yi - 1 + 2)) with (yi - 1)%Z by lia.
  change (zrange (Z.abs 2)) with [0%Z; 1%Z].
  cbn [flat_map app canvasBytes].
  rewrite scan_two_by_two.
  replace (xi - 1 + 1)%Z with xi by lia.
  replace (yi - 1 + 1)%Z with yi by lia.
  replace (xi - 1 + 0)%Z with (xi - 1)%Z by lia.
  replace (yi - 1 + 0)%Z with (yi - 1)%Z by lia.
  now destruct (canvasColor width height pixel xi (yi - 1)),
               (canvasColor width height pixel (xi - 1) yi),
               (canvasColor width height pixel xi yi).
Qed.

(** ** The robust estimator against its description *)

Lemma insertAscending_permutation (v : R) (l : list R) :
  Permutation (insertAscending v l) (v :: l).
Proof.
  induction l as [| w rest IH]; simpl; [apply Permutation_refl |].
  destruct (v <=? w); [apply Permutation_refl |].
  apply Permutation_trans with (w :: v :: rest).
  - now apply perm_skip.
  - apply perm_swap.
Qed.

Lemma sortAscending_permutation (l : list R) : Permutation (sortAscending l) l.
Proof.
  induction l as [| v rest IH]; simpl; [apply perm_nil |].
  apply Permutation_trans with (v :: sortAscending rest).
  - apply insertAscending_permutation.
  - now apply perm_skip.
Qed.

Lemma insertAscending_sorted (v : R) (l : list R) :
  Sorted Rle l -> Sorted Rle (insertAscending v l).
Proof.
  induction l as [| w rest IH]; intros Hsorted; simpl.
  - repeat constructor.
  - destruct (v <=? w) eqn:Hcmp.
    + apply leb_true_iff in Hcmp. constructor; [assumption | now constructor].
    + apply leb_false_iff in Hcmp. inversion Hsorted as [| ? ? Hrest Hhd]; subst.
      constructor; [now apply IH |].
      destruct rest as [| u rest']; simpl.
      * constructor. lra.
      * destruct (v <=? u); constructor; [lra |].
        inversion Hhd; subst. assumption.
Qed.

Lemma sortAscending_sorted (l : list R) : Sorted Rle (sortAscending l).
Proof.
  induction l as [| v rest IH]; simpl; [constructor |].
  now apply insertAscending_sorted.
Qed.

Lemma sortAscending_length (l : list R) : List.length (sortAscending l) = List.length l.
Proof. apply Permutation_length, sortAscending_permutation. Qed.

Lemma Rle_transitive : Relations_1.Transitive Rle.
Proof. intros a b c Hab Hbc. lra. Qed.

(** An ascending arrangement of given numbers is unique. *)
Lemma ascending_unique (s s' : list R) :
  Sorted Rle s -> Sorted Rle s' -> Permutation s s' -> s = s'.
Proof.
  intros Hs Hs'. apply (Sorted_StronglySorted Rle_transitive) in Hs.
  apply (Sorted_StronglySorted Rle_transitive) in Hs'.
  revert s' Hs'. induction Hs as [| a s Hs IH Ha]; intros s' Hs' Hperm.
  - apply Permutation_nil in Hperm. now subst.
  - destruct Hs' as [| b s' Hs' Hb].
    + apply Permutation_sym, Permutation_nil in Hperm. discriminate.
    + assert (Hab : a = b).
      { assert (Hina : In a (b :: s')) by (eapply Permutation_in; [exact Hperm | now left]).
        assert (Hinb : In b (a :: s))
          by (eapply Permutation_in; [apply Permutation_sym; exact Hperm | now left]).
        rewrite Forall_forall in Ha, Hb.
        destruct Hina as [-> | Hina]; [reflexivity |].
        destruct Hinb as [-> | Hinb]; [reflexivity |].
        apply Rle_antisym; auto. }
      subst b. f_equal. apply IH; [assumption |].
      now apply Permutation_cons_inv in Hperm.
Qed.

Lemma trimEnds_window (k : nat) :
  forall l : list R,
    (2 * k <= List.length l)%nat ->
    trimEnds k l = firstn (List.length l - 2 * k) (skipn k l).
Proof.
  induction k as [| k IH]; intros l Hlen; simpl.
  - rewrite Nat.sub_0_r. now rewrite firstn_all.
  - destruct l as [| x rest]; [simpl in Hlen; lia |].
    cbn [tl]. simpl in Hlen.
    rewrite IH.
    + rewrite removelast_firstn_len.
      rewrite length_firstn.
      rewrite skipn_firstn_comm, firstn_firstn.
      cbn [List.length skipn]. f_equal. lia.
    + rewrite removelast_firstn_len, length_firstn. lia.
Qed.

Lemma skipn_cons_nth (k : nat) :
  forall l : list R, (k < List.length l)%nat -> skipn k l = nth k l 0 :: skipn (S k) l.
Proof.
  induction k as [| k IH]; intros [| x rest] Hlen; simpl in Hlen; try lia.
  - reflexivity.
  - cbn [skipn nth]. apply IH. lia.
Qed.

Lemma medianOfSorted_spec (l : list R) :
  (1 <= List.length l)%nat -> medianOfSorted l = medianSpec l.
Proof.
  intros Hlen. unfold medianOfSorted, medianSpec.
  set (n := List.length l) in *.
  pose proof (Nat.div_mod_eq n 2) as Hn.
  pose proof (Nat.mod_upper_bound n 2 ltac:(lia)) as Hmod.
  pose proof (Nat.div_mod_eq (n - 1) 2) as Hk.
  pose proof (Nat.mod_upper_bound (n - 1) 2 ltac:(lia)) as Hkmod.
  rewrite trimEnds_window by (fold n; lia). fold n.
  destruct (Nat.eqb_spec (n mod 2) 0) as [Heven | Hodd].
  - assert (Hmid : (n / 2 = S ((n - 1) / 2))%nat) by lia.
    rewrite Hmid. replace (S ((n - 1) / 2) - 1)%nat with ((n - 1) / 2)%nat by lia.
    replace (n - 2 * ((n - 1) / 2))%nat with 2%nat by lia.
    rewrite skipn_cons_nth by (fold n; lia).
    rewrite (skipn_cons_nth (S ((n - 1) / 2))) by (fold n; lia).
    reflexivity.
  - assert (Hmid : (n / 2 = (n - 1) / 2)%nat) by lia.
    rewrite Hmid.
    replace (n - 2 * ((n - 1) / 2))%nat with 1%nat by lia.
    rewrite skipn_cons_nth by (fold n; lia).
    reflexivity.
Qed.

(** C7. The estimator returns black on the empty sequence and the pixel
    itself on a single pixel; on two or more pixels it converts every pixel
    to Lab, arranges each channel in ascending order on its own (the
    arrangement is a sorted permutation of the channel, the only one),
    takes the median of each (the mean of the two middle values for an even
    count), and converts the colour made of the three medians back to RGB. *)
Theorem estimator_is_channelwise_median :
  getRobustAverageColor [] = {| rgb_r := 0; rgb_g := 0; rgb_b := 0 |}
  /\ (forall p, getRobustAverageColor [p] = p)
  /\ (forall pixels, getRobustAverageColor pixels = estimateSpec pixels)
  /\ (forall values,
        Sorted Rle (sortAscending values)
        /\ Permutation (sortAscending values) values
        /\ forall s, Sorted Rle s -> Permutation s values -> s = sortAscending values)
  /\ (forall a b c d : R,
        a <= b -> b <= c -> c <= d ->
        medianSpec [a; b; c] = b /\ medianSpec [a; b; c; d] = (b + c) / 2).
Proof.
  split; [reflexivity |].
  split; [reflexivity |].
  split.
  - intros [| p [| q rest]]; try reflexivity.
    unfold getRobustAverageColor, estimateSpec.
    rewrite !medianOfSorted_spec; [reflexivity | | |];
      rewrite sortAscending_length, !length_map; simpl; lia.
  - split.
    + intros values. split; [apply sortAscending_sorted |].
      split; [apply sortAscending_permutation |].
      intros s Hs Hperm. apply ascending_unique; [assumption | apply sortAscending_sorted |].
      apply Permutation_trans with values; [assumption |].
      apply Permutation_sym, sortAscending_permutation.
    + intros a b c d _ _ _. split; reflexivity.
Qed.

(** ** Two concrete runs *)








Lemma gridRadius_demo : gridRadius cornerA cornerH < 1 / 2.
Proof.
  unfold gridRadius, gridStepX, gridStepY, cornerA, cornerH, WELL_RADIUS_FACTOR.
  cbn [pt_x pt_y]. rewrite INR_NUM_COLS, INR_NUM_ROWS.
  unfold JsMath.min, JsMath.abs.
  replace ((15 - 10) / (6 - 1)) with 1 by lra.
  replace ((17 - 10) / (8 - 1)) with 1 by lra.
  rewrite Rabs_R1. rewrite Rmin_left by lra. lra.
Qed.

Lemma gridRadius_coincident (a1 : Point) : gridRadius a1 a1 = 0.
Proof.
  unfold gridRadius, gridStepX, gridStepY, JsMath.min, JsMath.abs.
  rewrite INR_NUM_COLS, INR_NUM_ROWS.
  replace ((pt_x a1 - pt_x a1) / (6 - 1)) with 0 by lra.
  replace ((pt_y a1 - pt_y a1) / (8 - 1)) with 0 by lra.
  rewrite Rabs_R0. rewrite Rmin_left by lra. lra.
Qed.




Lemma canvas_reference_present (width height : Z) (pixel : Z -> Z -> RGB) (a1 h6 p : Point) :
  ~ referenceMissing (canvasOf width height pixel) a1 h6 p.
Proof. unfold referenceMissing. apply getPixelData_nonempty, canvasOf_readsRectangles. Qed.

Lemma canvas_run_resolves (width height : Z) (pixel : Z -> Z -> RGB)
    (a1 h6 minColorPoint maxColorPoint : Point) :
  processWellPlate (Loaded (Some (canvasOf width height pixel))) a1 h6 minColorPoint maxColorPoint
  = Resolved (gridEntries (canvasOf width height pixel) a1 h6 minColorPoint maxColorPoint).
Proof. apply processWellPlate_resolved; apply canvas_reference_present. Qed.


Lemma flat_references_agree :
  getRobustAverageColor
    (getPixelData flatCanvas (pt_x cornerA) (pt_y cornerA) (gridRadius cornerA cornerH))
  = getRobustAverageColor
      (getPixelData flatCanvas (pt_x lightPoint) (pt_y lightPoint) (gridRadius cornerA cornerH)).
Proof.
  unfold flatCanvas. cbn [cornerA lightPoint pt_x pt_y].
  rewrite (canvasOf_small_sample _ _ _ 10 10) by apply gridRadius_demo.
  rewrite (canvasOf_small_sample _ _ _ 70 10) by apply gridRadius_demo.
  reflexivity.
Qed.


Lemma resolved_run_has_plate_shape_witness :
  List.length (gridEntries flatCanvas cornerA cornerH cornerA lightPoint) = 48%nat
  /\ map w_id (gridEntries flatCanvas cornerA cornerH cornerA lightPoint) = plateIds.
Proof.
  destruct (resolved_run_has_plate_shape (Loaded (Some flatCanvas))
              cornerA cornerH cornerA lightPoint
              (gridEntries flatCanvas cornerA cornerH cornerA lightPoint)
              (canvas_run_resolves _ _ _ _ _ _ _)) as [Hlen [Hids _]].
  split; assumption.
Defined.

Lemma degenerate_wells_score_zero_witness :
  exists results,
    processWellPlate (Loaded (Some flatCanvas)) cornerA cornerH cornerA lightPoint
    = Resolved results
    /\ List.length results = 48%nat
    /\ forall w, In w results -> intensity w = 0 /\ cellCount w = 0.
Proof.
  destruct (degenerate_wells_score_zero flatCanvas cornerA cornerH cornerA lightPoint
              (canvas_reference_present _ _ _ _ _ _)
              (canvas_reference_present _ _ _ _ _ _))
    as [results [Hrun [Hlen [_ [Hsame _]]]]].
  exists results. split; [exact Hrun |]. split; [exact Hlen |].
  exact (proj2 (Hsame flat_references_agree)).
Defined.

Lemma grid_is_affine_in_landmarks_witness :
  center (nth (3 * 6 + 3) (gridEntries wideCanvas wideA wideH wideA wideH) blankEntry)
  = {| pt_x := 100 + INR 3 * ((600 - 100) / 5); pt_y := 100 + INR 3 * ((800 - 100) / 7) |}.
Proof.
  destruct (grid_is_affine_in_landmarks wideCanvas wideA wideH wideA wideH
              (gridEntries wideCanvas wideA wideH wideA wideH)
              3 3 blankEntry
              (canvas_run_resolves _ _ _ _ _ _ _)
              ltac:(lia) ltac:(lia)) as [Hcenter _].
  exact Hcenter.
Defined.

(** Well D4 of that run sits at (400, 400) and is sampled with radius 30. *)
Example wide_D4 :
  center (nth (3 * 6 + 3) (gridEntries wideCanvas wideA wideH wideA wideH) blankEntry)
  = {| pt_x := 400; pt_y := 400 |}
  /\ gridRadius wideA wideH = 30
  /\ w_id (nth (3 * 6 + 3) (gridEntries wideCanvas wideA wideH wideA wideH) blankEntry)
     = "D4"%string.
Proof.
  split; [| split; [| reflexivity]].
  - change (3 * 6 + 3)%nat with (3 * NUM_COLS + 3)%nat.
    rewrite gridEntries_lookup by (unfold NUM_ROWS, NUM_COLS; lia).
    unfold calibratedEntry, wellEntry, gridStepX, gridStepY, wideA, wideH.
    cbn [center pt_x pt_y]. rewrite INR_NUM_COLS, INR_NUM_ROWS.
    f_equal; simpl; lra.
  - unfold gridRadius, gridStepX, gridStepY, wideA, wideH, WELL_RADIUS_FACTOR.
    cbn [pt_x pt_y]. rewrite INR_NUM_COLS, INR_NUM_ROWS.
    unfold JsMath.min, JsMath.abs.
    replace ((600 - 100) / (6 - 1)) with 100 by lra.
    replace ((800 - 100) / (8 - 1)) with 100 by lra.
    rewrite Rabs_pos_eq by lra. rewrite Rmin_left by lra. lra.
Qed.


(** ** Coincident landmarks *)

(** C5 as written fails: with both landmarks on one pixel of a plain
    image the run is not rejected; it resolves with 48 entries. *)
Lemma coincident_landmarks_resolve :
  gridRadius cornerA cornerA = 0
  /\ processWellPlate (Loaded (Some flatCanvas)) cornerA cornerA cornerA lightPoint
     <> Rejected referenceError
  /\ exists results,
       processWellPlate (Loaded (Some flatCanvas)) cornerA cornerA cornerA lightPoint
       = Resolved results
       /\ List.length results = 48%nat.
Proof.
  split; [apply gridRadius_coincident |].
  unfold flatCanvas. rewrite canvas_run_resolves.
  split; [discriminate |].
  eexists. split; [reflexivity | apply gridEntries_length].
Qed.

(** C5, amended. When the two landmarks coincide the grid steps and the
    requested sampling radius are zero and the sampler raises the radius
    to 1; on a canvas whose reads succeed the run is then not rejected: it
    resolves with 48 entries, all centred on the landmark. *)
Theorem coincident_landmarks_collapse_grid
    (ctx : CanvasRenderingContext2D) (a1 minColorPoint maxColorPoint : Point) :
  readsRectangles ctx ->
  gridStepX a1 a1 = 0 /\ gridStepY a1 a1 = 0 /\ gridRadius a1 a1 = 0
  /\ effectiveRadius (gridRadius a1 a1) = 1%Z
  /\ exists results,
       processWellPlate (Loaded (Some ctx)) a1 a1 minColorPoint maxColorPoint = Resolved results
       /\ List.length results = 48%nat
       /\ forall w, In w results -> center w = a1.
Proof.
  intros Hctx.
  assert (Hdx : gridStepX a1 a1 = 0) by (unfold gridStepX; rewrite INR_NUM_COLS; lra).
  assert (Hdy : gridStepY a1 a1 = 0) by (unfold gridStepY; rewrite INR_NUM_ROWS; lra).
  split; [exact Hdx |]. split; [exact Hdy |].
  split; [apply gridRadius_coincident |].
  split; [apply effectiveRadius_small; rewrite gridRadius_coincident; lra |].
  exists (gridEntries ctx a1 a1 minColorPoint maxColorPoint).
  split.
  - apply processWellPlate_resolved; unfold referenceMissing;
      now apply getPixelData_nonempty.
  - split; [apply gridEntries_length |].
    intros w Hin. apply gridEntries_In in Hin as [row [col [_ [_ ->]]]].
    unfold calibratedEntry, wellEntry. cbn [center]. rewrite Hdx, Hdy.
    destruct a1 as [x y]. cbn [pt_x pt_y]. f_equal; lra.
Qed.

Lemma coincident_landmarks_collapse_grid_witness :
  exists results,
    processWellPlate (Loaded (Some flatCanvas)) cornerA cornerA cornerA lightPoint
    = Resolved results
    /\ List.length results = 48%nat
    /\ forall w, In w results -> center w = cornerA.
Proof.
  destruct (coincident_landmarks_collapse_grid flatCanvas cornerA cornerA lightPoint
              (canvasOf_readsRectangles _ _ _)) as [_ [_ [_ [_ Hrun]]]].
  exact Hrun.
Defined.

(** ** Checks on small inputs *)

Example wellId_corners :
  wellId 0 0 = "A1"%string /\ wellId 3 3 = "D4"%string /\ wellId 7 5 = "H6"%string.
Proof. repeat split. Qed.

Example disc_of_radius_one :
  map (inDiscZ 1) [0; 1; 2; 3]%Z = [false; true; true; true].
Proof. reflexivity. Qed.

Example sort_three : sortAscending [3; 1; 2] = [1; 2; 3].
Proof.
  cbn [sortAscending insertAscending].
  replace (1 <=? 2) with true by (symmetry; apply leb_true_iff; lra).
  cbn [insertAscending].
  replace (3 <=? 1) with false by (symmetry; apply leb_false_iff; lra).
  replace (3 <=? 2) with false by (symmetry; apply leb_false_iff; lra).
  reflexivity.
Qed.

Example median_odd_even :
  medianOfSorted [1; 2; 3] = 2 /\ medianOfSorted [1; 2; 3; 4] = (2 + 3) / 2.
Proof. split; reflexivity. Qed.

(** A projection at or beyond the full reference saturates at intensity 1
    and count 10000; one at or before the zero reference gives 0 and 0. *)
Example scoreLab_saturates (origin vector : Lab) (magSq : R) (wellColor : Lab) :
  magSq > 1e-6 ->
  (magSq <= dot (gradientOf origin wellColor) vector ->
   scoreLab origin vector magSq true wellColor = (1, 10000))
  /\ (dot (gradientOf origin wellColor) vector <= 0 ->
      scoreLab origin vector magSq true wellColor = (0, 0)).
Proof.
  intros Hmag. rewrite scoreLab_scored by assumption. rewrite pow_two.
  set (d := dot (gradientOf origin wellColor) vector).
  split; intros Hd.
  - assert (Hraw : 1 <= d / magSq).
    { apply Rmult_le_reg_r with magSq; [lra |].
      replace (d / magSq * magSq) with d by (field; lra). lra. }
    unfold clampUnit, JsMath.max, JsMath.min.
    rewrite Rmin_left by assumption. rewrite Rmax_right by lra.
    f_equal. lra.
  - assert (Hraw : d / magSq <= 0).
    { apply Rmult_le_reg_r with magSq; [lra |].
      replace (d / magSq * magSq) with d by (field; lra). lra. }
    unfold clampUnit, JsMath.max, JsMath.min.
    rewrite Rmin_right by lra. rewrite Rmax_left by assumption.
    f_equal. lra.
Qed.
